(** * The location section of the resume content schema

    A verification development for
    [packages/core/src/models/schema/content/location.ts] (the runtime
    schema [locationSchema]) and the [LocationItem] / [Location] types of
    [packages/core/src/models/types.ts].

    [locationSchema] is a value built with the combinators of the zod
    library ([z.object], [.optional()], and through the primitives
    [z.string] with length checks and [z.enum]).  The combinators are
    embedded as the constructors of [schema], and zod's [safeParse] as the
    function [safeParse] that interprets them; [locationSchema] is then
    written exactly as in the source. *)

From stdpp Require Import strings gmap list.

Open Scope string_scope.
Open Scope list_scope.
Open Scope nat_scope.

#[local] Set Warnings "-register-all".

(** ** Values

    The values a schema is run on: the documents the resume parser
    produces.  [undefined] is not a value of its own: it is the absence of
    a value, [None] in [option value], which is what reading a key an
    object does not have yields.  An object is the finite map of its
    properties.  A character of a string stands for one of the units that
    the [length] of a JavaScript string counts.  A number's payload is
    never inspected by any schema here. *)

Inductive value :=
| VNull
| VBool (b : bool)
| VNumber (n : Z)
| VString (s : string)
| VArray (items : list value)
| VObject (props : gmap string value).

(** zod's [parsedType] of an input, as reported in [invalid_type] issues. *)
Inductive parsed_type :=
| TUndefined | TNull | TBoolean | TNumber | TString | TArray | TObject.

Definition parsedType (input : option value) : parsed_type :=
  match input with
  | None => TUndefined
  | Some VNull => TNull
  | Some (VBool _) => TBoolean
  | Some (VNumber _) => TNumber
  | Some (VString _) => TString
  | Some (VArray _) => TArray
  | Some (VObject _) => TObject
  end.

(** ** Issues *)

(** The [code] of a zod issue with the constraint it carries. *)
Inductive issue_code :=
| invalid_type (expected received : parsed_type)
| too_small (minimum : nat)
| too_big (maximum : nat)
| invalid_value (values : list string).

(** The text of a message is not modelled: a message is either the
    library's default for the code, or one the schema's author composed
    from a field name. *)
Inductive message :=
| DefaultMessage
| FieldMessage (name : string).

Record issue := Issue {
  code : issue_code;
  path : list string;
  msg : message
}.

(** [util.prefixIssues]: an issue of a property is reported under the
    property's key. *)
Definition prefixIssues (key : string) (iss : list issue) : list issue :=
  (λ i, Issue (code i) (key :: path i) (msg i)) <$> iss.

(** ** Schemas *)

(** A length check of a string schema ([.min(n, msg)], [.max(n, msg)]). *)
Inductive check :=
| MinLength (minimum : nat) (m : message)
| MaxLength (maximum : nat) (m : message).

Inductive schema :=
| ZString (checks : list check)
| ZEnum (values : list string)
| ZOptional (innerType : schema)
| ZObject (shape : list (string * schema)).

Record payload := Payload {
  value_of : option value;
  issues : list issue
}.

Definition run_check (s : string) (c : check) : list issue :=
  match c with
  | MinLength minimum m =>
      if decide (String.length s < minimum)
      then [Issue (too_small minimum) [] m] else []
  | MaxLength maximum m =>
      if decide (maximum < String.length s)
      then [Issue (too_big maximum) [] m] else []
  end.

(** The result of the properties of an object: the validated properties
    that are defined, and the issues of all of them in the order of the
    shape's keys.  The keys of a shape are distinct, so the order in which
    the properties are assigned is immaterial. *)
Definition collect_values (fields : list (string * payload)) : gmap string value :=
  foldr (λ kr acc, match value_of kr.2 with
                   | Some v => <[kr.1 := v]> acc
                   | None => acc
                   end) ∅ fields.

Definition collect_issues (fields : list (string * payload)) : list issue :=
  mjoin ((λ kr, prefixIssues kr.1 (issues kr.2)) <$> fields).

(** Running a schema on an input, as zod does:
    - a string schema run on a string runs every check, each adding its
      issue; on anything else it reports [invalid_type].  (On a value that
      is not a string but has a length, an array or an object with a
      [length] key, zod's length checks run as well and add their issues
      after it; these further issues are not modelled, and what is stated
      below of a value that is not a string in a string field is only that
      it is rejected, with [invalid_type] among the issues.);
    - an enum schema reports [invalid_value] on anything that is not one
      of its values;
    - an optional schema passes [undefined] through and hands every other
      input to its inner schema;
    - an object schema reports [invalid_type] on anything but an object;
      otherwise it runs the schema of each key of its shape on the
      property of that key, gathers the issues of all of them under their
      keys, and builds a fresh object of the validated properties, into
      which keys outside the shape are not copied. *)
Fixpoint run (sch : schema) (input : option value) {struct sch} : payload :=
  match sch with
  | ZString checks =>
      match input with
      | Some (VString s) => Payload input (mjoin (run_check s <$> checks))
      | _ => Payload input
               [Issue (invalid_type TString (parsedType input)) [] DefaultMessage]
      end
  | ZEnum values =>
      match input with
      | Some (VString s) =>
          if decide (s ∈ values) then Payload input []
          else Payload input [Issue (invalid_value values) [] DefaultMessage]
      | _ => Payload input [Issue (invalid_value values) [] DefaultMessage]
      end
  | ZOptional innerType =>
      match input with
      | None => Payload None []
      | Some _ => run innerType input
      end
  | ZObject shape =>
      match input with
      | Some (VObject props) =>
          let fields := (λ ks, (ks.1, run ks.2 (props !! ks.1))) <$> shape in
          Payload (Some (VObject (collect_values fields))) (collect_issues fields)
      | _ => Payload input
               [Issue (invalid_type TObject (parsedType input)) [] DefaultMessage]
      end
  end.

(** [safeParse]: the validated data when no issue was raised, the list of
    all issues otherwise. *)
Inductive parse_result :=
| Success (data : option value)
| Failure (error : list issue).

Definition safeParse (sch : schema) (input : option value) : parse_result :=
  let r := run sch input in
  match issues r with
  | [] => Success (value_of r)
  | _ :: _ => Failure (issues r)
  end.

(** The issues of a result: none when it is a success. *)
Definition errors (r : parse_result) : list issue :=
  match r with
  | Success _ => []
  | Failure error => error
  end.

(** A schema is well formed when the keys of every shape are distinct, as
    the keys of a JavaScript object are. *)
Inductive wf_schema : schema → Prop :=
| wf_string checks : wf_schema (ZString checks)
| wf_enum values : wf_schema (ZEnum values)
| wf_optional innerType : wf_schema innerType → wf_schema (ZOptional innerType)
| wf_object shape :
    NoDup shape.*1 → Forall (λ ks, wf_schema ks.2) shape →
    wf_schema (ZObject shape).

(** ** Static types

    The part of TypeScript's types that [types.ts] uses for the location
    section: [string], a union of string literals, and object types whose
    properties are required or optional ([key?: T]). *)

Inductive ts_type :=
| TsString
| TsUnion (members : list string)
| TsObject (properties : list (string * (bool * ts_type))).

(** [z.infer]: the static type of what a schema validates, with whether
    the schema makes a key optional. *)
Fixpoint infer (sch : schema) : bool * ts_type :=
  match sch with
  | ZString _ => (false, TsString)
  | ZEnum values => (false, TsUnion values)
  | ZOptional innerType => (true, (infer innerType).2)
  | ZObject shape => (false, TsObject ((λ ks, (ks.1, infer ks.2)) <$> shape))
  end.

Definition properties_of (t : ts_type) : list (string * (bool * ts_type)) :=
  match t with
  | TsObject properties => properties
  | _ => []
  end.

(** TypeScript's [Omit<T, key>]. *)
Definition Omit (t : ts_type) (key : string) : ts_type :=
  match t with
  | TsObject properties =>
      TsObject (filter (λ p, p.1 ≠ key) properties)
  | _ => t
  end.

(** A value inhabits a type, as TypeScript has it for the values at hand:
    a [string] is any string, a union of literals is one of its members,
    and an object type is inhabited by the objects that have every
    required property, each property that is present being of its type;
    properties the type does not mention are allowed. *)
Fixpoint has_type (t : ts_type) (v : value) {struct t} : bool :=
  match t, v with
  | TsString, VString _ => true
  | TsUnion members, VString s => bool_decide (s ∈ members)
  | TsObject properties, VObject props =>
      forallb (λ p, match props !! p.1 with
                    | None => p.2.1
                    | Some w => has_type p.2.2 w
                    end) properties
  | _, _ => false
  end.

(** A property of type [t], optional or not, holds [o]. *)
Definition property_has_type (p : bool * ts_type) (o : option value) : bool :=
  match o with
  | None => p.1
  | Some w => has_type p.2 w
  end.

(** ** The violation kinds of the specification, as zod reports them *)

(** A length violation naming [name]: the string is shorter or longer than
    the declared bound. *)
Definition length_violation (name : string) (i : issue) : Prop :=
  (∃ bound, code i = too_small bound ∨ code i = too_big bound) ∧
  msg i = FieldMessage name.

(** An invalid choice: the value is not in the option set. *)
Definition invalid_choice (i : issue) : Prop :=
  ∃ values, code i = invalid_value values.

(** A missing required field: zod reads the absent key as [undefined] and
    reports that it is not of the expected type. *)
Definition missing_required_field (i : issue) : Prop :=
  ∃ expected, code i = invalid_type expected TUndefined.

(** ** The primitives the location schema is built from *)

(** Modelled from the spec: [sizedStringSchema] of the [primitives] module,
    which is not among the sources.  It is the bounded-length string
    validator: it fails with a length violation when the character count
    of the string is outside [[min, max]], and the error names the field
    it was built for. *)
Definition sizedStringSchema (name : string) (min max : nat) : schema :=
  ZString [MinLength min (FieldMessage name); MaxLength max (FieldMessage name)].

Section Location.

(** The table of country and region options, [COUNTRY_OPTIONS], is not
    among the sources: the development holds for every table. *)
Variable COUNTRY_OPTIONS : list string.

(** Modelled from the spec: [countryOptionSchema] of the [primitives]
    module, which is not among the sources.  It is the enumerated-option
    validator of [COUNTRY_OPTIONS]: it fails with an invalid-choice error
    when the value is not a member of the option list. *)
Definition countryOptionSchema : schema := ZEnum COUNTRY_OPTIONS.

(** The shape of the object under the [location] key. *)
Definition locationItemShape : list (string * schema) :=
  [ (* required fields *)
    ("city", sizedStringSchema "city" 2 64);
    (* optional fields *)
    ("address", ZOptional (sizedStringSchema "address" 4 256));
    ("country", ZOptional countryOptionSchema);
    ("postalCode", ZOptional (sizedStringSchema "postalCode" 2 16));
    ("region", ZOptional (sizedStringSchema "region" 2 64)) ].

Definition locationItemSchema : schema := ZObject locationItemShape.

(** A zod schema for location. *)
Definition locationSchema : schema :=
  ZObject [ ("location", ZOptional locationItemSchema) ].

(** *** The types of [types.ts] *)

(** A union type for all possible countries and regions in the world. *)
Definition Country : ts_type := TsUnion COUNTRY_OPTIONS.

(** The location information. *)
Definition LocationItem : ts_type :=
  TsObject
    [ ("city", (false, TsString));
      ("address", (true, TsString));
      ("country", (true, Country));
      ("postalCode", (true, TsString));
      ("region", (true, TsString));
      ("computed",
        (true, TsObject
                 [ ("postalCodeAndAddress", (false, TsString));
                   ("regionAndCountry", (false, TsString));
                   ("fullAddress", (false, TsString)) ])) ].

(** The 'location' section of the resume content. *)
Definition Location : ts_type :=
  TsObject [ ("location", (true, LocationItem)) ].

(** *** The contract of the location section, in the specification's words *)

(** A string of [min] to [max] characters. *)
Definition sized_string (min max : nat) (v : value) : Prop :=
  ∃ s, v = VString s ∧ (min ≤ String.length s ≤ max)%nat.

(** A recognized country/region option. *)
Definition country_option (v : value) : Prop :=
  ∃ s, v = VString s ∧ s ∈ COUNTRY_OPTIONS.

(** An optional field: absent, or present and satisfying its constraint. *)
Definition optional_field (P : value → Prop) (o : option value) : Prop :=
  match o with
  | None => True
  | Some v => P v
  end.

(** A required field: present and satisfying its constraint. *)
Definition required_field (P : value → Prop) (o : option value) : Prop :=
  match o with
  | None => False
  | Some v => P v
  end.

Definition location_item_contract (v : value) : Prop :=
  ∃ loc, v = VObject loc ∧
    required_field (sized_string 2 64) (loc !! "city") ∧
    optional_field (sized_string 4 256) (loc !! "address") ∧
    optional_field country_option (loc !! "country") ∧
    optional_field (sized_string 2 16) (loc !! "postalCode") ∧
    optional_field (sized_string 2 64) (loc !! "region").

Definition location_contract (props : gmap string value) : Prop :=
  optional_field location_item_contract (props !! "location").

(** The bounded string fields of the location section with their bounds
    (external interfaces table of the specification). *)
Definition bounded_fields : list (string * (nat * nat)) :=
  [ ("city", (2, 64)); ("address", (4, 256));
    ("postalCode", (2, 16)); ("region", (2, 64)) ].

(** The properties of a location object that the schema declares. *)
Definition declaredProperties (loc : gmap string value) : gmap string value :=
  filter (λ kv, kv.1 ∈ locationItemShape.*1) loc.

(** The paths of the fields of the location object, in the order in which
    the schema declares them. *)
Definition locationFieldPaths : list (list string) :=
  (λ k, ["location"; k]) <$> locationItemShape.*1.

(** ** Lemmas on schemas *)

Lemma schema_nested_ind (P : schema → Prop) :
  (∀ checks, P (ZString checks)) →
  (∀ values, P (ZEnum values)) →
  (∀ innerType, P innerType → P (ZOptional innerType)) →
  (∀ shape, Forall (λ ks, P ks.2) shape → P (ZObject shape)) →
  ∀ sch, P sch.
Proof.
  intros Hstr Henum Hopt Hobj. fix IH 1. intros [checks|values|inner|shape].
  - apply Hstr.
  - apply Henum.
  - apply Hopt, IH.
  - apply Hobj. induction shape as [|[k s] shape IHshape]; constructor.
    + apply IH.
    + apply IHshape.
Qed.

(** *** Objects *)

Lemma run_object shape props :
  run (ZObject shape) (Some (VObject props)) =
  Payload
    (Some (VObject (collect_values
                      ((λ ks, (ks.1, run ks.2 (props !! ks.1))) <$> shape))))
    (collect_issues ((λ ks, (ks.1, run ks.2 (props !! ks.1))) <$> shape)).
Proof. reflexivity. Qed.

Lemma issues_run_object shape props :
  issues (run (ZObject shape) (Some (VObject props))) =
  collect_issues ((λ ks, (ks.1, run ks.2 (props !! ks.1))) <$> shape).
Proof. reflexivity. Qed.

Lemma value_of_run_object shape props :
  value_of (run (ZObject shape) (Some (VObject props))) =
  Some (VObject (collect_values
                   ((λ ks, (ks.1, run ks.2 (props !! ks.1))) <$> shape))).
Proof. reflexivity. Qed.

Lemma run_optional_Some sch v :
  run (ZOptional sch) (Some v) = run sch (Some v).
Proof. reflexivity. Qed.

Lemma collect_issues_cons k r fields :
  collect_issues ((k, r) :: fields) =
  prefixIssues k (issues r) ++ collect_issues fields.
Proof. reflexivity. Qed.

Lemma prefixIssues_nil k iss : prefixIssues k iss = [] ↔ iss = [].
Proof.
  unfold prefixIssues. split.
  - apply fmap_nil_inv.
  - intros ->. reflexivity.
Qed.

Lemma collect_issues_nil fields :
  collect_issues fields = [] ↔ Forall (λ kr, issues kr.2 = []) fields.
Proof.
  induction fields as [|[k r] fields IH].
  - split; [constructor | reflexivity].
  - rewrite collect_issues_cons, Forall_cons, <- IH. simpl.
    rewrite <- (prefixIssues_nil k (issues r)).
    split.
    + intros H. apply app_eq_nil in H. exact H.
    + intros [-> ->]. reflexivity.
Qed.

Lemma collect_issues_elem k r i fields :
  (k, r) ∈ fields → i ∈ issues r →
  Issue (code i) (k :: path i) (msg i) ∈ collect_issues fields.
Proof.
  intros Hin Hi. induction fields as [|[k' r'] fields IH].
  - apply elem_of_nil in Hin. destruct Hin.
  - rewrite collect_issues_cons. apply elem_of_app.
    apply elem_of_cons in Hin as [Heq|Hin].
    + inversion Heq; subst k' r'. left. unfold prefixIssues.
      apply (list_elem_of_fmap_2 (λ i, Issue (code i) (k :: path i) (msg i))).
      exact Hi.
    + right. apply IH. exact Hin.
Qed.

Lemma collect_values_notin k fields :
  k ∉ fields.*1 → collect_values fields !! k = None.
Proof.
  induction fields as [|[k' r] fields IH]; intros Hk.
  - apply lookup_empty.
  - rewrite fmap_cons, not_elem_of_cons in Hk. destruct Hk as [Hne Hk].
    simpl in *. destruct (value_of r) as [v|].
    + rewrite lookup_insert_ne by congruence. auto.
    + auto.
Qed.

Lemma collect_values_in k r fields :
  NoDup fields.*1 → (k, r) ∈ fields →
  collect_values fields !! k = value_of r.
Proof.
  induction fields as [|[k' r'] fields IH]; intros Hnd Hin.
  - apply elem_of_nil in Hin. destruct Hin.
  - rewrite fmap_cons in Hnd. apply NoDup_cons in Hnd as [Hfresh Hnd].
    apply elem_of_cons in Hin as [Heq|Hin].
    + inversion Heq; subst k' r'. simpl in *.
      destruct (value_of r) as [v|].
      * apply lookup_insert_eq.
      * apply collect_values_notin. exact Hfresh.
    + assert (k ≠ k') as Hne.
      { intros ->. apply Hfresh.
        apply (list_elem_of_fmap_2 fst) in Hin. exact Hin. }
      simpl in *. destruct (value_of r') as [v|].
      * rewrite lookup_insert_ne by congruence. auto.
      * auto.
Qed.

Lemma collect_values_dom fields :
  dom (collect_values fields) ⊆ list_to_set fields.*1.
Proof.
  intros k Hk. apply elem_of_list_to_set.
  destruct (decide (k ∈ fields.*1)) as [Hin|Hnot]; [exact Hin|].
  apply elem_of_dom in Hk. rewrite collect_values_notin in Hk by exact Hnot.
  destruct Hk as [v Hv]. discriminate.
Qed.

Lemma shape_fields_keys (f : string * schema → payload) shape :
  ((λ ks, (ks.1, f ks)) <$> shape).*1 = shape.*1.
Proof.
  induction shape as [|[k s] shape IH]; [reflexivity|].
  simpl. f_equal. exact IH.
Qed.

(** An object schema reads only the keys of its shape. *)
Lemma run_object_ext shape props props' :
  (∀ k, k ∈ shape.*1 → props !! k = props' !! k) →
  run (ZObject shape) (Some (VObject props)) =
  run (ZObject shape) (Some (VObject props')).
Proof.
  intros Hagree. rewrite !run_object.
  assert (((λ ks, (ks.1, run ks.2 (props !! ks.1))) <$> shape) =
          ((λ ks, (ks.1, run ks.2 (props' !! ks.1))) <$> shape)) as ->.
  { apply Forall_fmap_ext_1, Forall_forall. intros [k s] Hin. simpl.
    rewrite (Hagree k); [reflexivity|].
    apply (list_elem_of_fmap_2 fst) in Hin. exact Hin. }
  reflexivity.
Qed.

(** *** Re-validation *)

Lemma payload_eta r : r = Payload (value_of r) (issues r).
Proof. destruct r; reflexivity. Qed.

(** A value a well-formed schema has validated is validated again to
    itself. *)
Lemma run_idempotent sch :
  wf_schema sch → ∀ input,
  issues (run sch input) = [] →
  run sch (value_of (run sch input)) = run sch input.
Proof.
  induction sch as [checks|values|inner IH|shape IH] using schema_nested_ind;
    intros Hwf input Hok.
  - destruct input as [[]|]; simpl in *; try discriminate. reflexivity.
  - destruct input as [[| | |s| |]|]; simpl in *; try discriminate.
    destruct (decide (s ∈ values)) as [Hin|Hnot] eqn:Hdec; simpl in *.
    + rewrite Hdec. reflexivity.
    + discriminate.
  - inversion Hwf as [| |inner' Hinner|]; subst inner'.
    destruct input as [v|]; [|reflexivity]. simpl in *.
    specialize (IH Hinner (Some v) Hok).
    destruct (value_of (run inner (Some v))) as [v'|] eqn:Hval.
    + exact IH.
    + rewrite (payload_eta (run inner (Some v))), Hval, Hok. reflexivity.
  - inversion Hwf as [| | |shape' Hnodup Hwfs]; subst shape'.
    destruct input as [[| | | | |props]|]; simpl in Hok; try discriminate.
    rewrite run_object in *. simpl value_of in *. simpl issues in Hok.
    rewrite run_object.
    apply collect_issues_nil in Hok.
    assert (((λ ks, (ks.1,
               run ks.2
                 (collect_values
                    ((λ ks0, (ks0.1, run ks0.2 (props !! ks0.1))) <$> shape)
                  !! ks.1))) <$> shape) =
            ((λ ks, (ks.1, run ks.2 (props !! ks.1))) <$> shape)) as ->;
      [|reflexivity].
    apply Forall_fmap_ext_1, Forall_forall. intros [k s] Hin. simpl. f_equal.
    rewrite (collect_values_in k (run s (props !! k))).
    + rewrite Forall_forall in IH. apply (IH (k, s) Hin).
      * rewrite Forall_forall in Hwfs. apply (Hwfs (k, s) Hin).
      * rewrite Forall_forall in Hok.
        apply (Hok (k, run s (props !! k))).
        apply (list_elem_of_fmap_2 (λ ks, (ks.1, run ks.2 (props !! ks.1)))
                 shape (k, s) Hin).
    + rewrite shape_fields_keys. exact Hnodup.
    + apply (list_elem_of_fmap_2 (λ ks, (ks.1, run ks.2 (props !! ks.1)))
               shape (k, s) Hin).
Qed.

Lemma safeParse_Success sch input data :
  safeParse sch input = Success data ↔
  issues (run sch input) = [] ∧ value_of (run sch input) = data.
Proof.
  unfold safeParse. destruct (issues (run sch input)) as [|i iss].
  - split; [intros [= <-]; auto | intros [_ ->]; reflexivity].
  - split; [discriminate | intros [? _]; discriminate].
Qed.

Lemma safeParse_Failure sch input error :
  safeParse sch input = Failure error ↔
  issues (run sch input) = error ∧ error ≠ [].
Proof.
  unfold safeParse. destruct (issues (run sch input)) as [|i iss].
  - split; [discriminate | intros [<- Hne]; congruence].
  - split; [intros [= <-]; auto | intros [-> _]; reflexivity].
Qed.

(** *** What the primitives accept *)

Lemma sizedStringSchema_issues name min max s :
  issues (run (sizedStringSchema name min max) (Some (VString s))) =
  (if decide (String.length s < min)
   then [Issue (too_small min) [] (FieldMessage name)] else []) ++
  (if decide (max < String.length s)
   then [Issue (too_big max) [] (FieldMessage name)] else []).
Proof. simpl. rewrite app_nil_r. reflexivity. Qed.

Lemma sizedStringSchema_accepts name min max o :
  issues (run (sizedStringSchema name min max) o) = [] ↔
  required_field (sized_string min max) o.
Proof.
  destruct o as [v|]; [|split; [discriminate | intros []]].
  destruct v as [| | |s| |];
    try (split; [discriminate | intros (s' & [=] & _)]).
  rewrite sizedStringSchema_issues. simpl. unfold sized_string.
  split.
  - intros Hnil. exists s. split; [reflexivity|].
    destruct (decide (String.length s < min)),
             (decide (max < String.length s)); try discriminate. lia.
  - intros (s' & [= <-] & Hlen).
    destruct (decide (String.length s < min)),
             (decide (max < String.length s)); try lia. reflexivity.
Qed.

Lemma countryOptionSchema_accepts o :
  issues (run countryOptionSchema o) = [] ↔ required_field country_option o.
Proof.
  destruct o as [v|]; [|split; [discriminate | intros []]].
  destruct v as [| | |s| |];
    try (split; [discriminate | intros (s' & [=] & _)]).
  simpl. unfold country_option.
  destruct (decide (s ∈ COUNTRY_OPTIONS)) as [Hin|Hnot]; simpl.
  - split; [intros _; exists s; auto | reflexivity].
  - split; [discriminate | intros (s' & [= <-] & Hin); contradiction].
Qed.

Lemma ZOptional_accepts sch P o :
  (∀ o', issues (run sch o') = [] ↔ required_field P o') →
  issues (run (ZOptional sch) o) = [] ↔ optional_field P o.
Proof.
  intros Hsch. destruct o as [v|]; simpl.
  - apply (Hsch (Some v)).
  - split; auto.
Qed.

(** ** The location schema *)

Lemma locationItemSchema_wf : wf_schema locationItemSchema.
Proof.
  constructor.
  - apply (bool_decide_unpack _). vm_compute. reflexivity.
  - unfold locationItemShape, sizedStringSchema, countryOptionSchema.
    repeat (constructor; simpl).
Qed.

Lemma locationSchema_wf : wf_schema locationSchema.
Proof.
  constructor.
  - apply (bool_decide_unpack _). vm_compute. reflexivity.
  - constructor; [|constructor]. constructor. apply locationItemSchema_wf.
Qed.

(** The issues of a document are the issues of its [location] property,
    reported under that key. *)
Lemma locationSchema_issues props :
  issues (run locationSchema (Some (VObject props))) =
  prefixIssues "location"
    (issues (run (ZOptional locationItemSchema) (props !! "location"))).
Proof.
  unfold locationSchema. rewrite issues_run_object.
  unfold collect_issues. cbn [fmap list_fmap mjoin list_join fst snd].
  apply app_nil_r.
Qed.

Lemma locationItemSchema_accepts o :
  issues (run locationItemSchema o) = [] ↔
  required_field location_item_contract o.
Proof.
  destruct o as [v|]; [|split; [discriminate | intros []]].
  destruct v as [| | | | |loc];
    try (split; [discriminate | intros (loc' & [=] & _)]).
  unfold locationItemSchema. rewrite issues_run_object.
  rewrite collect_issues_nil. unfold locationItemShape.
  cbn [fmap list_fmap fst snd]. rewrite !Forall_cons.
  cbn [fst snd].
  rewrite sizedStringSchema_accepts.
  rewrite !(ZOptional_accepts _ _ _ (sizedStringSchema_accepts _ _ _)).
  rewrite (ZOptional_accepts _ _ _ countryOptionSchema_accepts).
  unfold location_item_contract. split.
  - intros (Hcity & Haddr & Hcountry & Hpostal & Hregion & _).
    exists loc. auto 10.
  - intros (loc' & [= <-] & Hcity & Haddr & Hcountry & Hpostal & Hregion).
    auto 10.
Qed.

Lemma locationSchema_accepts props :
  issues (run locationSchema (Some (VObject props))) = [] ↔
  location_contract props.
Proof.
  rewrite locationSchema_issues, prefixIssues_nil.
  apply ZOptional_accepts, locationItemSchema_accepts.
Qed.

(** An issue of a field of the location object is an issue of the
    document, under the path of the field. *)
Lemma location_field_issue props loc k sch i :
  props !! "location" = Some (VObject loc) →
  (k, sch) ∈ locationItemShape →
  i ∈ issues (run sch (loc !! k)) →
  Issue (code i) ("location" :: k :: path i) (msg i)
    ∈ issues (run locationSchema (Some (VObject props))).
Proof.
  intros Hloc Hin Hi. rewrite locationSchema_issues, Hloc.
  rewrite run_optional_Some.
  unfold locationItemSchema. rewrite issues_run_object.
  set (fields := (λ ks, (ks.1, run ks.2 (loc !! ks.1))) <$> locationItemShape).
  apply (list_elem_of_fmap_2
           (λ i, Issue (code i) ("location" :: path i) (msg i))
           (collect_issues fields)
           (Issue (code i) (k :: path i) (msg i))).
  apply (collect_issues_elem k (run sch (loc !! k))); [|exact Hi].
  apply (list_elem_of_fmap_2 (λ ks, (ks.1, run ks.2 (loc !! ks.1)))
           locationItemShape (k, sch) Hin).
Qed.

Lemma safeParse_fails_with sch input i :
  i ∈ issues (run sch input) →
  ∃ error, safeParse sch input = Failure error ∧ i ∈ error.
Proof.
  intros Hi. exists (issues (run sch input)). split; [|exact Hi].
  apply safeParse_Failure. split; [reflexivity|].
  intros Hnil. rewrite Hnil in Hi. apply elem_of_nil in Hi. exact Hi.
Qed.

(** ** The contract of the location section *)

Lemma locationSchema_succeeds props :
  (∃ data, safeParse locationSchema (Some (VObject props)) = Success data) ↔
  location_contract props.
Proof.
  rewrite <- locationSchema_accepts. split.
  - intros [data Hdata]. apply safeParse_Success in Hdata. tauto.
  - intros Hnil. eexists. apply safeParse_Success. split; [exact Hnil|].
    reflexivity.
Qed.

(** C1.  The location schema accepts a document without the [location]
    key; it accepts a document exactly when [location] is absent or is an
    object whose [city] is a string of 2 to 64 characters and whose
    [address] (4 to 256 characters), [country] (a country/region option),
    [postalCode] (2 to 16 characters) and [region] (2 to 64 characters)
    are each absent or within their constraint; every document violating
    one of these constraints is rejected. *)
Theorem locationSchema_contract (props : gmap string value) :
  (props !! "location" = None →
   ∃ data, safeParse locationSchema (Some (VObject props)) = Success data) ∧
  ((∃ data, safeParse locationSchema (Some (VObject props)) = Success data) ↔
   location_contract props) ∧
  (¬ location_contract props →
   ∃ error, safeParse locationSchema (Some (VObject props)) = Failure error).
Proof.
  pose proof (locationSchema_succeeds props) as Hiff.
  split; [|split].
  - intros Habsent. apply Hiff. unfold location_contract.
    rewrite Habsent. exact I.
  - exact Hiff.
  - intros Hnot.
    destruct (safeParse locationSchema (Some (VObject props)))
      as [data|error] eqn:Hres.
    + exfalso. apply Hnot, Hiff. exists data. reflexivity.
    + exists error. reflexivity.
Qed.

(** *** Bounded strings *)

Lemma sizedStringSchema_safeParse name min max s :
  min ≤ max →
  (String.length s < min ∨ max < String.length s →
   ∃ i, safeParse (sizedStringSchema name min max) (Some (VString s))
        = Failure [i] ∧ length_violation name i ∧ path i = []) ∧
  (min ≤ String.length s ≤ max →
   safeParse (sizedStringSchema name min max) (Some (VString s))
   = Success (Some (VString s))).
Proof.
  intros Hbounds. unfold safeParse. rewrite sizedStringSchema_issues.
  destruct (decide (String.length s < min)) as [Hlt|Hge],
           (decide (max < String.length s)) as [Hgt|Hle];
    try lia; cbn [app]; split.
  - intros _. eexists. split; [reflexivity|]. split; [|reflexivity].
    split; [exists min; left; reflexivity | reflexivity].
  - lia.
  - intros _. eexists. split; [reflexivity|]. split; [|reflexivity].
    split; [exists max; right; reflexivity | reflexivity].
  - lia.
  - lia.
  - intros _. reflexivity.
Qed.

(** C2.  For every bounded string field of the location schema ([city]
    2..64, [address] 4..256, [postalCode] 2..16, [region] 2..64) and every
    string [s]: when [s] is shorter than the minimum or longer than the
    maximum, validating the field fails with one length violation naming
    the field; when the length of [s] is within the bounds, validating the
    field alone succeeds. *)
Theorem bounded_field_length (name : string) (min max : nat) (s : string) :
  (name, (min, max)) ∈ bounded_fields →
  ∃ sch, (name, sch) ∈ locationItemShape ∧
    (String.length s < min ∨ max < String.length s →
     ∃ i, safeParse sch (Some (VString s)) = Failure [i] ∧
          length_violation name i ∧ path i = []) ∧
    (min ≤ String.length s ≤ max →
     safeParse sch (Some (VString s)) = Success (Some (VString s))).
Proof.
  intros Hfield. unfold bounded_fields in Hfield.
  rewrite !elem_of_cons in Hfield.
  destruct Hfield as [Heq|[Heq|[Heq|[Heq|Hnil]]]];
    [| | | |apply elem_of_nil in Hnil; destruct Hnil];
    inversion Heq; subst name min max; clear Heq.
  - exists (sizedStringSchema "city" 2 64). split.
    + unfold locationItemShape. rewrite !elem_of_cons. auto.
    + apply sizedStringSchema_safeParse. lia.
  - exists (ZOptional (sizedStringSchema "address" 4 256)). split.
    + unfold locationItemShape. rewrite !elem_of_cons. auto.
    + unfold safeParse. rewrite run_optional_Some.
      apply sizedStringSchema_safeParse. lia.
  - exists (ZOptional (sizedStringSchema "postalCode" 2 16)). split.
    + unfold locationItemShape. rewrite !elem_of_cons. auto 6.
    + unfold safeParse. rewrite run_optional_Some.
      apply sizedStringSchema_safeParse. lia.
  - exists (ZOptional (sizedStringSchema "region" 2 64)). split.
    + unfold locationItemShape. rewrite !elem_of_cons. auto 7.
    + unfold safeParse. rewrite run_optional_Some.
      apply sizedStringSchema_safeParse. lia.
Qed.

(** *** The country option *)

(** C3.  For every value [v] supplied as [location.country]: when [v] is
    a member of the country/region option set, validating the field
    succeeds; when it is not, validating the field fails with an
    invalid-choice error, and so does validating any document that
    carries [v] there. *)
Theorem country_choice (v : value) :
  ("country", ZOptional countryOptionSchema) ∈ locationItemShape ∧
  (country_option v →
   safeParse (ZOptional countryOptionSchema) (Some v) = Success (Some v)) ∧
  (¬ country_option v →
   ∃ i, safeParse (ZOptional countryOptionSchema) (Some v) = Failure [i] ∧
        invalid_choice i ∧
        ∀ props loc,
          props !! "location" = Some (VObject loc) →
          loc !! "country" = Some v →
          ∃ error,
            safeParse locationSchema (Some (VObject props)) = Failure error ∧
            Issue (code i) ["location"; "country"] (msg i) ∈ error).
Proof.
  assert (("country", ZOptional countryOptionSchema) ∈ locationItemShape)
    as Hshape.
  { unfold locationItemShape. rewrite !elem_of_cons. auto. }
  split; [exact Hshape|]. split.
  - intros (s & -> & Hin). unfold safeParse. rewrite run_optional_Some.
    simpl. destruct (decide (s ∈ COUNTRY_OPTIONS)); [reflexivity|].
    contradiction.
  - intros Hnot.
    exists (Issue (invalid_value COUNTRY_OPTIONS) [] DefaultMessage).
    assert (issues (run (ZOptional countryOptionSchema) (Some v)) =
            [Issue (invalid_value COUNTRY_OPTIONS) [] DefaultMessage])
      as Hissues.
    { rewrite run_optional_Some.
      destruct v as [| | |s| |]; try reflexivity. simpl.
      destruct (decide (s ∈ COUNTRY_OPTIONS)) as [Hin|_]; [|reflexivity].
      exfalso. apply Hnot. exists s. auto. }
    split; [|split].
    + unfold safeParse. rewrite Hissues. reflexivity.
    + exists COUNTRY_OPTIONS. reflexivity.
    + intros props loc Hloc Hcountry.
      apply safeParse_fails_with.
      apply (location_field_issue props loc "country"
               (ZOptional countryOptionSchema)
               (Issue (invalid_value COUNTRY_OPTIONS) [] DefaultMessage)
               Hloc Hshape).
      rewrite Hcountry, Hissues. apply list_elem_of_here.
Qed.

(** *** Optional section, required city *)

(** C4.  Validating a document that omits [location] succeeds; validating
    a document whose [location] object omits [city] fails with a
    missing-required-field error for [city], whatever other fields the
    object provides. *)
Theorem location_optional_city_required (props : gmap string value) :
  (props !! "location" = None →
   safeParse locationSchema (Some (VObject props))
   = Success (Some (VObject ∅))) ∧
  (∀ loc,
     props !! "location" = Some (VObject loc) →
     loc !! "city" = None →
     ∃ error i,
       safeParse locationSchema (Some (VObject props)) = Failure error ∧
       i ∈ error ∧ missing_required_field i ∧
       path i = ["location"; "city"]).
Proof.
  split.
  - intros Habsent. apply safeParse_Success. split.
    + rewrite locationSchema_issues, Habsent. reflexivity.
    + unfold locationSchema. rewrite value_of_run_object.
      cbn [fmap list_fmap fst snd]. rewrite Habsent. reflexivity.
  - intros loc Hloc Hcity.
    destruct (safeParse_fails_with locationSchema (Some (VObject props))
                (Issue (invalid_type TString TUndefined)
                   ["location"; "city"] DefaultMessage))
      as (error & Hfail & Hin).
    { apply (location_field_issue props loc "city"
               (sizedStringSchema "city" 2 64)
               (Issue (invalid_type TString TUndefined) [] DefaultMessage)
               Hloc).
      - unfold locationItemShape. apply list_elem_of_here.
      - rewrite Hcity. apply list_elem_of_here. }
    exists error, (Issue (invalid_type TString TUndefined)
                     ["location"; "city"] DefaultMessage).
    split; [exact Hfail|]. split; [exact Hin|]. split; [|reflexivity].
    exists TString. reflexivity.
Qed.

(** *** Re-validation *)

(** C5.  Validation with the location schema is idempotent: the output of
    a successful validation validates again, successfully and to the same
    output. *)
Theorem locationSchema_idempotent (input data : option value) :
  safeParse locationSchema input = Success data →
  safeParse locationSchema data = Success data.
Proof.
  intros Hok. apply safeParse_Success in Hok as [Hnil Hval].
  apply safeParse_Success. subst data.
  rewrite (run_idempotent locationSchema locationSchema_wf input Hnil).
  split; [exact Hnil | reflexivity].
Qed.

(** *** Aggregation of issues *)

(** C6.  All violations are reported together: when a field of the
    location object has an issue, validation fails with a list of issues
    that holds every issue of every field, each under the path of its
    field; the document [{ location: { address: "123" } }] fails with both
    the missing [city] and the [address] below its minimum length 4. *)
Theorem issues_reported_together :
  (∀ (props loc : gmap string value) k sch i,
     props !! "location" = Some (VObject loc) →
     (k, sch) ∈ locationItemShape →
     i ∈ issues (run sch (loc !! k)) →
     ∃ error,
       safeParse locationSchema (Some (VObject props)) = Failure error ∧
       ∀ k' sch' i',
         (k', sch') ∈ locationItemShape →
         i' ∈ issues (run sch' (loc !! k')) →
         Issue (code i') ("location" :: k' :: path i') (msg i') ∈ error) ∧
  safeParse locationSchema
    (Some (VObject
             {[ "location" := VObject {[ "address" := VString "123" ]} ]}))
  = Failure
      [ Issue (invalid_type TString TUndefined)
          ["location"; "city"] DefaultMessage;
        Issue (too_small 4) ["location"; "address"] (FieldMessage "address") ].
Proof.
  split.
  - intros props loc k sch i Hloc Hin Hi.
    destruct (safeParse_fails_with locationSchema (Some (VObject props)) _
                (location_field_issue props loc k sch i Hloc Hin Hi))
      as (error & Hfail & _).
    exists error. split; [exact Hfail|].
    intros k' sch' i' Hin' Hi'.
    apply safeParse_Failure in Hfail as [<- _].
    apply (location_field_issue props loc k' sch' i' Hloc Hin' Hi').
  - vm_compute. reflexivity.
Qed.

(** *** The examples with a city *)

Lemma city_B_rejected :
  safeParse locationSchema
    (Some (VObject {[ "location" := VObject {[ "city" := VString "B" ]} ]}))
  = Failure [ Issue (too_small 2) ["location"; "city"] (FieldMessage "city") ].
Proof. vm_compute. reflexivity. Qed.

Lemma city_Berlin_country_accepted (country : string) :
  country ∈ COUNTRY_OPTIONS →
  ∃ data,
    safeParse locationSchema
      (Some (VObject
               {[ "location" :=
                    VObject (<[ "city" := VString "Berlin" ]>
                               {[ "country" := VString country ]}) ]}))
    = Success data.
Proof.
  intros Hin. apply locationSchema_succeeds.
  unfold location_contract. rewrite lookup_singleton_eq.
  eexists. split; [reflexivity|].
  repeat split.
  - rewrite lookup_insert_eq. exists "Berlin". split; [reflexivity|].
    simpl. lia.
  - rewrite lookup_insert_ne by discriminate. rewrite lookup_singleton_eq.
    exists country. auto.
Qed.

(** *** The schema and the type *)

(** C9.  The static type that the location schema validates is
    [LocationItem] without its [computed] property, field by field with
    the same optionality and the same type; [computed] is a property of
    the type only, it is optional, and its key is distinct from the key of
    every base field, so that it replaces none of them. *)
Theorem schema_matches_type :
  infer locationItemSchema = (false, Omit LocationItem "computed") ∧
  infer locationSchema
  = (false, TsObject [("location", (true, Omit LocationItem "computed"))]) ∧
  Location = TsObject [("location", (true, LocationItem))] ∧
  (∃ t, ("computed", (true, t)) ∈ properties_of LocationItem) ∧
  ("computed" ∉ locationItemShape.*1) ∧
  NoDup (properties_of LocationItem).*1.
Proof.
  split; [reflexivity|]. split; [reflexivity|]. split; [reflexivity|].
  split; [|split].
  - eexists. unfold LocationItem, properties_of.
    rewrite !elem_of_cons. do 5 right. left. reflexivity.
  - apply (bool_decide_unpack _). vm_compute. reflexivity.
  - apply (bool_decide_unpack _). vm_compute. reflexivity.
Qed.

(** *** Undeclared keys *)

Lemma run_locationSchema_ext props props' loc loc' :
  props !! "location" = Some (VObject loc) →
  props' !! "location" = Some (VObject loc') →
  (∀ k, k ∈ locationItemShape.*1 → loc !! k = loc' !! k) →
  run locationSchema (Some (VObject props)) =
  run locationSchema (Some (VObject props')).
Proof.
  intros Hloc Hloc' Hagree. unfold locationSchema. rewrite !run_object.
  cbn [fmap list_fmap fst snd]. rewrite Hloc, Hloc', !run_optional_Some.
  unfold locationItemSchema.
  rewrite (run_object_ext locationItemShape loc loc' Hagree). reflexivity.
Qed.

Lemma locationSchema_output props data :
  safeParse locationSchema (Some (VObject props)) = Success data →
  ∃ out, data = Some (VObject out) ∧
    dom out ⊆ {[ "location" ]} ∧
    ∀ v, out !! "location" = Some v →
      ∃ item, v = VObject item ∧ dom item ⊆ list_to_set locationItemShape.*1.
Proof.
  intros Hok. apply safeParse_Success in Hok as [Hnil Hval].
  unfold locationSchema in Hval. rewrite value_of_run_object in Hval.
  cbn [fmap list_fmap fst snd] in Hval.
  set (fields := [("location",
                   run (ZOptional locationItemSchema) (props !! "location"))])
    in Hval.
  exists (collect_values fields). split; [symmetry; exact Hval|]. split.
  - intros k Hk. apply collect_values_dom in Hk.
    apply elem_of_list_to_set in Hk. unfold fields in Hk. simpl in Hk.
    apply list_elem_of_singleton in Hk. apply elem_of_singleton. exact Hk.
  - intros v Hv.
    rewrite (collect_values_in "location"
               (run (ZOptional locationItemSchema) (props !! "location")))
      in Hv.
    + apply locationSchema_accepts in Hnil. unfold location_contract in Hnil.
      destruct (props !! "location") as [w|] eqn:Hloc; [|discriminate].
      destruct Hnil as (loc & -> & _).
      rewrite run_optional_Some in Hv. unfold locationItemSchema in Hv.
      rewrite value_of_run_object in Hv.
      exists (collect_values
                ((λ ks, (ks.1, run ks.2 (loc !! ks.1))) <$> locationItemShape)).
      split; [congruence|].
      intros k Hk. apply collect_values_dom in Hk.
      rewrite shape_fields_keys in Hk. exact Hk.
    + unfold fields. simpl. apply NoDup_singleton.
    + unfold fields. apply list_elem_of_here.
Qed.

(** ** Further properties of the location schema *)

(** *** What validation keeps of a document *)

Lemma locationItemShape_keys_NoDup : NoDup locationItemShape.*1.
Proof. apply (bool_decide_unpack _). vm_compute. reflexivity. Qed.

Lemma locationItemShape_cases k sch :
  (k, sch) ∈ locationItemShape →
  (k, sch) = ("city", sizedStringSchema "city" 2 64) ∨
  (k, sch) = ("address", ZOptional (sizedStringSchema "address" 4 256)) ∨
  (k, sch) = ("country", ZOptional countryOptionSchema) ∨
  (k, sch) = ("postalCode", ZOptional (sizedStringSchema "postalCode" 2 16)) ∨
  (k, sch) = ("region", ZOptional (sizedStringSchema "region" 2 64)).
Proof.
  unfold locationItemShape. rewrite !elem_of_cons, elem_of_nil. tauto.
Qed.

(** No schema of a field changes the value it is run on. *)
Lemma locationItemShape_value k sch o :
  (k, sch) ∈ locationItemShape → value_of (run sch o) = o.
Proof.
  intros Hin. apply locationItemShape_cases in Hin.
  destruct Hin as [Heq|[Heq|[Heq|[Heq|Heq]]]]; inversion Heq; subst k sch;
    destruct o as [[| | |s| |]|]; try reflexivity.
  simpl. destruct (decide (s ∈ COUNTRY_OPTIONS)); reflexivity.
Qed.

Lemma declaredProperties_lookup loc k :
  declaredProperties loc !! k =
  if decide (k ∈ locationItemShape.*1) then loc !! k else None.
Proof.
  unfold declaredProperties.
  destruct (decide (k ∈ locationItemShape.*1)) as [Hin|Hnot].
  - destruct (loc !! k) as [v|] eqn:Hv.
    + apply map_lookup_filter_Some_2; [exact Hv | exact Hin].
    + apply map_lookup_filter_None_2. left. exact Hv.
  - apply map_lookup_filter_None_2. right. intros x _. exact Hnot.
Qed.

Lemma locationItemSchema_value loc :
  value_of (run locationItemSchema (Some (VObject loc))) =
  Some (VObject (declaredProperties loc)).
Proof.
  unfold locationItemSchema. rewrite value_of_run_object. do 2 f_equal.
  apply map_eq. intros k. rewrite declaredProperties_lookup.
  destruct (decide (k ∈ locationItemShape.*1)) as [Hin|Hnot].
  - apply list_elem_of_fmap in Hin as ([k' sch] & -> & Hin).
    change ((k', sch).1) with k'.
    rewrite (collect_values_in k' (run sch (loc !! k'))).
    + apply (locationItemShape_value k' sch _ Hin).
    + rewrite shape_fields_keys. apply locationItemShape_keys_NoDup.
    + apply (list_elem_of_fmap_2 (λ ks, (ks.1, run ks.2 (loc !! ks.1)))
               locationItemShape (k', sch) Hin).
  - apply collect_values_notin. rewrite shape_fields_keys. exact Hnot.
Qed.

Lemma locationSchema_success_data props data :
  safeParse locationSchema (Some (VObject props)) = Success data →
  (props !! "location" = None ∧ data = Some (VObject ∅)) ∨
  (∃ loc, props !! "location" = Some (VObject loc) ∧
     data = Some (VObject
                    {[ "location" := VObject (declaredProperties loc) ]})).
Proof.
  intros Hok. apply safeParse_Success in Hok as [Hnil Hval].
  apply locationSchema_accepts in Hnil. unfold location_contract in Hnil.
  unfold locationSchema in Hval. rewrite value_of_run_object in Hval.
  cbn [fmap list_fmap fst snd] in Hval.
  destruct (props !! "location") as [w|] eqn:Hloc.
  - right. destruct Hnil as (loc & -> & _). exists loc.
    split; [reflexivity|]. rewrite <- Hval.
    rewrite run_optional_Some. unfold collect_values. cbn [foldr fst snd].
    rewrite locationItemSchema_value. reflexivity.
  - left. split; [reflexivity|]. rewrite <- Hval. reflexivity.
Qed.

(** C10.  Keys the location schema does not declare never make validation
    fail: a document validates to the same result with or without an
    undeclared key, at the top level and inside the [location] object.
    They are stripped, and nothing else is: a successful output is the
    empty object when the document has no [location], and otherwise the
    object whose only key is [location], holding every declared property
    that the input's location has, with the input's value, and no
    undeclared one; so a successful output has no key but [location], and
    its [location] has no key but the five declared ones.  The document
    [{ city: "Berlin" }] validates, to an output without location data. *)
Theorem unknown_keys_stripped :
  (∀ (props : gmap string value) k v,
     k ≠ "location" →
     safeParse locationSchema (Some (VObject (<[k := v]> props)))
     = safeParse locationSchema (Some (VObject props))) ∧
  (∀ (props loc : gmap string value) k v,
     props !! "location" = Some (VObject loc) →
     k ∉ locationItemShape.*1 →
     safeParse locationSchema
       (Some (VObject (<["location" := VObject (<[k := v]> loc)]> props)))
     = safeParse locationSchema (Some (VObject props))) ∧
  (∀ (props : gmap string value) data,
     safeParse locationSchema (Some (VObject props)) = Success data →
     (props !! "location" = None ∧ data = Some (VObject ∅)) ∨
     (∃ loc item,
        props !! "location" = Some (VObject loc) ∧
        data = Some (VObject {[ "location" := VObject item ]}) ∧
        (∀ k, k ∈ locationItemShape.*1 → item !! k = loc !! k) ∧
        (∀ k, k ∉ locationItemShape.*1 → item !! k = None))) ∧
  (∀ (props : gmap string value) data,
     safeParse locationSchema (Some (VObject props)) = Success data →
     ∃ out, data = Some (VObject out) ∧
       dom out ⊆ {[ "location" ]} ∧
       ∀ w, out !! "location" = Some w →
         ∃ item, w = VObject item ∧
                 dom item ⊆ list_to_set locationItemShape.*1) ∧
  safeParse locationSchema (Some (VObject {[ "city" := VString "Berlin" ]}))
  = Success (Some (VObject ∅)).
Proof.
  split; [|split; [|split; [|split]]].
  - intros props k v Hne. unfold safeParse, locationSchema.
    rewrite (run_object_ext _ (<[k := v]> props) props); [reflexivity|].
    intros k' Hk'. simpl in Hk'. apply list_elem_of_singleton in Hk'.
    subst k'. apply lookup_insert_ne. exact Hne.
  - intros props loc k v Hloc Hk. unfold safeParse.
    rewrite (run_locationSchema_ext
               (<["location" := VObject (<[k := v]> loc)]> props) props
               (<[k := v]> loc) loc); [reflexivity| |exact Hloc|].
    + apply lookup_insert_eq.
    + intros k' Hk'. apply lookup_insert_ne. intros ->. contradiction.
  - intros props data Hok. apply locationSchema_success_data in Hok.
    destruct Hok as [Habsent|(loc & Hloc & Hdata)]; [left; exact Habsent|].
    right. exists loc, (declaredProperties loc).
    split; [exact Hloc|]. split; [exact Hdata|]. split.
    + intros k Hk. rewrite declaredProperties_lookup.
      destruct (decide (k ∈ locationItemShape.*1)); [reflexivity|].
      contradiction.
    + intros k Hk. rewrite declaredProperties_lookup.
      destruct (decide (k ∈ locationItemShape.*1)); [|reflexivity].
      contradiction.
  - apply locationSchema_output.
  - vm_compute. reflexivity.
Qed.

(** X3.  A successful validation returns the declared part of the
    document and nothing else: without [location] the empty object, and
    otherwise the object whose only key is [location], holding the
    properties of the input's location that the schema declares, each with
    the value the input gave it. *)
Theorem validated_data_is_declared_part
    (props : gmap string value) (data : option value) :
  safeParse locationSchema (Some (VObject props)) = Success data →
  (props !! "location" = None ∧ data = Some (VObject ∅)) ∨
  (∃ loc, props !! "location" = Some (VObject loc) ∧
     data = Some (VObject
                    {[ "location" := VObject (declaredProperties loc) ]}) ∧
     ∀ k, declaredProperties loc !! k =
          if decide (k ∈ locationItemShape.*1) then loc !! k else None).
Proof.
  intros Hok. apply locationSchema_success_data in Hok.
  destruct Hok as [Habsent|(loc & Hloc & Hdata)]; [left; exact Habsent|].
  right. exists loc. split; [exact Hloc|]. split; [exact Hdata|].
  apply declaredProperties_lookup.
Qed.

(** X8.  The documents that validation returns unchanged are exactly the
    valid documents without undeclared keys. *)
Theorem validation_fixed_points (props : gmap string value) :
  safeParse locationSchema (Some (VObject props))
  = Success (Some (VObject props)) ↔
  location_contract props ∧
  dom props ⊆ {[ "location" ]} ∧
  ∀ loc, props !! "location" = Some (VObject loc) →
         dom loc ⊆ list_to_set locationItemShape.*1.
Proof.
  split.
  - intros Hok. split; [|split].
    + apply locationSchema_succeeds. eexists. exact Hok.
    + apply locationSchema_output in Hok as (out & [= <-] & Hdom & _).
      exact Hdom.
    + intros loc Hloc.
      apply locationSchema_output in Hok as (out & [= <-] & _ & Hitem).
      destruct (Hitem _ Hloc) as (item & [= <-] & Hdom). exact Hdom.
  - intros (Hcontract & Hdom & Hitem).
    apply locationSchema_succeeds in Hcontract as [data Hdata].
    rewrite Hdata. do 3 f_equal.
    assert (∀ k, k ≠ "location" → props !! k = None) as Hother.
    { intros k Hne. apply not_elem_of_dom. intros Hk. apply Hdom in Hk.
      apply elem_of_singleton in Hk. contradiction. }
    apply locationSchema_success_data in Hdata
      as [[Habsent ->]|(loc & Hloc & ->)]; f_equal; f_equal;
      apply map_eq; intros k; destruct (decide (k = "location")) as [->|Hne].
    + rewrite lookup_empty, Habsent. reflexivity.
    + rewrite lookup_empty, (Hother k Hne). reflexivity.
    + rewrite lookup_singleton_eq, Hloc. do 2 f_equal.
      apply map_filter_id. intros i x Hix. simpl.
      apply (elem_of_list_to_set (C := gset string)), (Hitem loc Hloc).
      apply elem_of_dom. eexists. exact Hix.
    + rewrite lookup_singleton_ne by congruence.
      rewrite (Hother k Hne). reflexivity.
Qed.

(** *** The issues of a document *)

Lemma collect_issues_elem_inv i fields :
  i ∈ collect_issues fields →
  ∃ k r j, (k, r) ∈ fields ∧ j ∈ issues r ∧
           i = Issue (code j) (k :: path j) (msg j).
Proof.
  induction fields as [|[k r] fields IH]; intros Hi.
  - apply elem_of_nil in Hi. destruct Hi.
  - rewrite collect_issues_cons in Hi. apply elem_of_app in Hi as [Hi|Hi].
    + unfold prefixIssues in Hi.
      apply list_elem_of_fmap in Hi as (j & -> & Hj).
      exists k, r, j. split; [apply list_elem_of_here|]. auto.
    + destruct (IH Hi) as (k' & r' & j & Hin & Hj & ->).
      exists k', r', j. split; [apply list_elem_of_further; exact Hin|]. auto.
Qed.

(** Every issue of a document with a location object is the issue of one
    of its fields. *)
Lemma location_issue_inv props loc i :
  props !! "location" = Some (VObject loc) →
  i ∈ issues (run locationSchema (Some (VObject props))) →
  ∃ k sch j, (k, sch) ∈ locationItemShape ∧
             j ∈ issues (run sch (loc !! k)) ∧
             i = Issue (code j) ("location" :: k :: path j) (msg j).
Proof.
  intros Hloc Hi. rewrite locationSchema_issues, Hloc in Hi.
  rewrite run_optional_Some in Hi. unfold locationItemSchema in Hi.
  rewrite issues_run_object in Hi. unfold prefixIssues at 1 in Hi.
  apply list_elem_of_fmap in Hi as (i' & -> & Hi').
  apply collect_issues_elem_inv in Hi' as (k & r & j & Hin & Hj & ->).
  apply list_elem_of_fmap in Hin as ([k' sch] & [= -> ->] & Hin).
  exists k', sch, j. auto.
Qed.

(** The issues a bounded string schema can raise. *)
Lemma sizedStringSchema_issue name min max o j :
  j ∈ issues (run (sizedStringSchema name min max) o) →
  path j = [] ∧
  ((code j = invalid_type TString (parsedType o) ∧ msg j = DefaultMessage ∧
    ∀ s, o ≠ Some (VString s)) ∨
   (msg j = FieldMessage name ∧
    (code j = too_small min ∨ code j = too_big max) ∧
    ∃ s, o = Some (VString s))).
Proof.
  intros Hj.
  destruct o as [[| | |s| |]|];
    try (apply list_elem_of_singleton in Hj; subst j;
         split; [reflexivity|]; left;
         split; [reflexivity|]; split; [reflexivity|];
         intros s'; discriminate).
  rewrite sizedStringSchema_issues in Hj.
  apply elem_of_app in Hj as [Hj|Hj].
  - destruct (decide (String.length s < min)); [|apply elem_of_nil in Hj; tauto].
    apply list_elem_of_singleton in Hj; subst j. split; [reflexivity|].
    right. split; [reflexivity|]. split; [left; reflexivity|]. eauto.
  - destruct (decide (max < String.length s)); [|apply elem_of_nil in Hj; tauto].
    apply list_elem_of_singleton in Hj; subst j. split; [reflexivity|].
    right. split; [reflexivity|]. split; [right; reflexivity|]. eauto.
Qed.

(** A bounded string schema with [min ≤ max] raises at most one issue on
    a string and on an absent value. *)
Lemma sizedStringSchema_at_most_one name min max o :
  min ≤ max →
  (∀ v, o = Some v → ∃ s, v = VString s) →
  issues (run (sizedStringSchema name min max) o) = [] ∨
  ∃ j, issues (run (sizedStringSchema name min max) o) = [j] ∧ path j = [].
Proof.
  intros Hbounds Hstring.
  destruct o as [v|]; [|right; eexists; split; reflexivity].
  destruct (Hstring v eq_refl) as [s ->].
  rewrite sizedStringSchema_issues.
  destruct (decide (String.length s < min)),
           (decide (max < String.length s)); try lia.
  - right. eexists. split; reflexivity.
  - right. eexists. split; reflexivity.
  - left. reflexivity.
Qed.

Lemma ZOptional_at_most_one sch o :
  (issues (run sch o) = [] ∨
   ∃ j, issues (run sch o) = [j] ∧ path j = []) →
  issues (run (ZOptional sch) o) = [] ∨
  ∃ j, issues (run (ZOptional sch) o) = [j] ∧ path j = [].
Proof.
  intros Hsch. destruct o as [v|]; [|left; reflexivity].
  rewrite run_optional_Some. exact Hsch.
Qed.

Lemma countryOptionSchema_at_most_one o :
  issues (run countryOptionSchema o) = [] ∨
  ∃ j, issues (run countryOptionSchema o) = [j] ∧ path j = [].
Proof.
  destruct o as [[| | |s| |]|];
    try (right; eexists; split; reflexivity).
  simpl. destruct (decide (s ∈ COUNTRY_OPTIONS)).
  - left. reflexivity.
  - right. eexists. split; reflexivity.
Qed.

(** Each field of a location object whose bounded fields hold strings
    raises at most one issue. *)
Lemma locationItemShape_at_most_one (loc : gmap string value) k sch :
  (∀ k' min max v,
     (k', (min, max)) ∈ bounded_fields →
     loc !! k' = Some v → ∃ s, v = VString s) →
  (k, sch) ∈ locationItemShape →
  issues (run sch (loc !! k)) = [] ∨
  ∃ j, issues (run sch (loc !! k)) = [j] ∧ path j = [].
Proof.
  intros Hstrings Hin. apply locationItemShape_cases in Hin.
  assert (∀ k' min max,
            (k', (min, max)) ∈ bounded_fields →
            ∀ v, loc !! k' = Some v → ∃ s, v = VString s) as Hfield.
  { intros k' min max Hbounded v Hv. exact (Hstrings k' min max v Hbounded Hv). }
  destruct Hin as [Heq|[Heq|[Heq|[Heq|Heq]]]]; inversion Heq; subst k sch.
  - apply sizedStringSchema_at_most_one; [lia|].
    apply (Hfield "city" 2 64). unfold bounded_fields.
    rewrite !elem_of_cons. auto.
  - apply ZOptional_at_most_one, sizedStringSchema_at_most_one; [lia|].
    apply (Hfield "address" 4 256). unfold bounded_fields.
    rewrite !elem_of_cons. auto.
  - apply ZOptional_at_most_one, countryOptionSchema_at_most_one.
  - apply ZOptional_at_most_one, sizedStringSchema_at_most_one; [lia|].
    apply (Hfield "postalCode" 2 16). unfold bounded_fields.
    rewrite !elem_of_cons. auto.
  - apply ZOptional_at_most_one, sizedStringSchema_at_most_one; [lia|].
    apply (Hfield "region" 2 64). unfold bounded_fields.
    rewrite !elem_of_cons. auto 6.
Qed.

(** When every property raises at most one issue, at its own path, the
    paths of the issues of an object follow the order of its keys. *)
Lemma collect_issues_paths fields :
  Forall (λ kr, issues kr.2 = [] ∨
                ∃ j, issues kr.2 = [j] ∧ path j = []) fields →
  path <$> collect_issues fields `sublist_of` (λ k, [k]) <$> fields.*1.
Proof.
  induction 1 as [|[k r] fields Hone _ IH]; [constructor|].
  rewrite collect_issues_cons, fmap_app. simpl in Hone |- *.
  destruct Hone as [->|(j & -> & Hpath)]; simpl.
  - apply sublist_cons. exact IH.
  - rewrite Hpath. apply sublist_skip. exact IH.
Qed.

Lemma prefixIssues_paths key iss :
  path <$> prefixIssues key iss = (cons key) <$> (path <$> iss).
Proof.
  unfold prefixIssues. induction iss as [|i iss IH]; [reflexivity|].
  simpl. f_equal. exact IH.
Qed.

(** X5.  For a document with a location object whose bounded string
    fields ([city], [address], [postalCode], [region]) hold strings where
    they are present, the issues come in the order in which the schema
    declares the fields, with at most one issue for a field: the list of
    their paths is a sublist of [location.city], [location.address],
    [location.country], [location.postalCode], [location.region]; so
    there are at most five issues and no two of them have the same
    path. *)
Theorem issues_follow_declaration_order
    (props loc : gmap string value) (error : list issue) :
  props !! "location" = Some (VObject loc) →
  (∀ k min max v,
     (k, (min, max)) ∈ bounded_fields →
     loc !! k = Some v → ∃ s, v = VString s) →
  safeParse locationSchema (Some (VObject props)) = Failure error →
  path <$> error `sublist_of` locationFieldPaths ∧
  length error ≤ 5 ∧
  NoDup (path <$> error).
Proof.
  intros Hloc Hstrings Hfail. apply safeParse_Failure in Hfail as [<- _].
  assert (path <$> issues (run locationSchema (Some (VObject props)))
          `sublist_of` locationFieldPaths) as Hsub.
  { rewrite locationSchema_issues, Hloc, run_optional_Some.
    unfold locationItemSchema. rewrite issues_run_object.
    rewrite prefixIssues_paths.
    change locationFieldPaths
      with ((cons "location") <$> ((λ k, [k]) <$> locationItemShape.*1)).
    apply (fmap_sublist (cons "location")).
    rewrite <- (shape_fields_keys (λ ks, run ks.2 (loc !! ks.1))
                  locationItemShape).
    apply collect_issues_paths. apply Forall_fmap, Forall_forall.
    intros [k sch] Hin. simpl.
    apply (locationItemShape_at_most_one loc k sch Hstrings Hin). }
  split; [exact Hsub|]. split.
  - apply sublist_length in Hsub. rewrite length_fmap in Hsub. exact Hsub.
  - eapply sublist_NoDup; [|exact Hsub].
    apply (bool_decide_unpack _). vm_compute. reflexivity.
Qed.

(** *** Inputs of the wrong shape *)

(** X4.  What is not an object is rejected with a single issue, and
    validation looks no further: a document that is not an object
    (undefined, null, a string, a number, a boolean, an array) fails with
    [invalid_type], expected object, at the root; a document whose
    [location] is present and not an object (null included) fails with
    [invalid_type], expected object, at [location]. *)
Theorem non_object_rejected :
  (∀ input : option value,
     (∀ props, input ≠ Some (VObject props)) →
     safeParse locationSchema input
     = Failure [ Issue (invalid_type TObject (parsedType input))
                   [] DefaultMessage ]) ∧
  (∀ (props : gmap string value) (w : value),
     props !! "location" = Some w →
     (∀ loc, w ≠ VObject loc) →
     safeParse locationSchema (Some (VObject props))
     = Failure [ Issue (invalid_type TObject (parsedType (Some w)))
                   ["location"] DefaultMessage ]).
Proof.
  split.
  - intros input Hnot.
    destruct input as [[| | | | |props]|]; try reflexivity.
    exfalso. apply (Hnot props). reflexivity.
  - intros props w Hloc Hnot. unfold safeParse.
    rewrite locationSchema_issues, Hloc, run_optional_Some.
    destruct w as [| | | | |loc]; try reflexivity.
    exfalso. apply (Hnot loc). reflexivity.
Qed.

(** *** Removing a field *)

Lemma optional_field_delete P (loc : gmap string value) k j :
  optional_field P (loc !! j) → optional_field P (delete k loc !! j).
Proof.
  intros Hfield. destruct (decide (k = j)) as [->|Hne].
  - rewrite lookup_delete_eq. exact I.
  - rewrite lookup_delete_ne by exact Hne. exact Hfield.
Qed.

(** X7.  Removing a field other than [city] from the location of a valid
    document leaves a valid document. *)
Theorem removing_optional_field_keeps_valid
    (props loc : gmap string value) (k : string) (data : option value) :
  props !! "location" = Some (VObject loc) →
  k ≠ "city" →
  safeParse locationSchema (Some (VObject props)) = Success data →
  ∃ data',
    safeParse locationSchema
      (Some (VObject (<["location" := VObject (delete k loc)]> props)))
    = Success data'.
Proof.
  intros Hloc Hk Hok. apply locationSchema_succeeds.
  assert (location_contract props) as Hcontract.
  { apply locationSchema_succeeds. exists data. exact Hok. }
  unfold location_contract in *. rewrite Hloc in Hcontract.
  rewrite lookup_insert_eq.
  destruct Hcontract
    as (loc' & [= <-] & Hcity & Haddr & Hcountry & Hpostal & Hregion).
  exists (delete k loc). split; [reflexivity|].
  split; [rewrite lookup_delete_ne by exact Hk; exact Hcity|].
  auto using optional_field_delete.
Qed.

(** *** Validated data and the static types *)

(** What a well-formed schema validates inhabits the type inferred from
    the schema. *)
Lemma run_has_type sch :
  wf_schema sch → ∀ input,
  issues (run sch input) = [] →
  property_has_type (infer sch) (value_of (run sch input)) = true.
Proof.
  induction sch as [checks|values|inner IH|shape IH] using schema_nested_ind;
    intros Hwf input Hok.
  - destruct input as [[]|]; simpl in *; try discriminate. reflexivity.
  - destruct input as [[| | |s| |]|]; simpl in *; try discriminate.
    destruct (decide (s ∈ values)) as [Hin|Hnot]; simpl in *.
    + apply bool_decide_eq_true_2. exact Hin.
    + discriminate.
  - inversion Hwf as [| |inner' Hinner|]; subst inner'.
    destruct input as [v|]; [|reflexivity].
    rewrite run_optional_Some in *.
    specialize (IH Hinner (Some v) Hok). simpl.
    destruct (value_of (run inner (Some v))) as [w|]; [exact IH | reflexivity].
  - inversion Hwf as [| | |shape' Hnodup Hwfs]; subst shape'.
    destruct input as [[| | | | |props]|]; try (simpl in Hok; discriminate).
    rewrite issues_run_object in Hok. rewrite value_of_run_object.
    apply collect_issues_nil in Hok.
    cbn [infer property_has_type has_type fst snd].
    apply forallb_forall. intros p Hp. apply list_elem_of_In in Hp.
    apply list_elem_of_fmap in Hp as ([k s] & -> & Hin).
    cbn [fst snd].
    rewrite (collect_values_in k (run s (props !! k))).
    + rewrite Forall_forall in IH. apply (IH (k, s) Hin).
      * rewrite Forall_forall in Hwfs. apply (Hwfs (k, s) Hin).
      * rewrite Forall_forall in Hok.
        apply (Hok (k, run s (props !! k))).
        apply (list_elem_of_fmap_2 (λ ks, (ks.1, run ks.2 (props !! ks.1)))
                 shape (k, s) Hin).
    + rewrite shape_fields_keys. exact Hnodup.
    + apply (list_elem_of_fmap_2 (λ ks, (ks.1, run ks.2 (props !! ks.1)))
               shape (k, s) Hin).
Qed.

(** An object without a [computed] property that has every base property
    of [LocationItem] is a [LocationItem]. *)
Lemma has_type_LocationItem_without_computed item :
  item !! "computed" = None →
  has_type (Omit LocationItem "computed") (VObject item) = true →
  has_type LocationItem (VObject item) = true.
Proof.
  intros Hcomputed.
  change (Omit LocationItem "computed")
    with (TsObject
            [ ("city", (false, TsString));
              ("address", (true, TsString));
              ("country", (true, Country));
              ("postalCode", (true, TsString));
              ("region", (true, TsString)) ]).
  unfold LocationItem. cbn [has_type forallb fst snd].
  rewrite Hcomputed. rewrite !andb_true_r. auto.
Qed.

(** X1.  Whatever the location schema validates is a value of the type
    [Location] of [types.ts]: the validated [location], when there is
    one, is a [LocationItem]. *)
Theorem validated_data_has_type_Location (input data : option value) :
  safeParse locationSchema input = Success data →
  ∃ v, data = Some v ∧ has_type Location v = true.
Proof.
  intros Hok.
  destruct input as [[| | | | |props]|]; try discriminate.
  pose proof Hok as Hout.
  apply locationSchema_output in Hout as (out & -> & _ & Hitem).
  exists (VObject out). split; [reflexivity|].
  apply safeParse_Success in Hok as [Hnil Hval].
  pose proof (run_has_type locationSchema locationSchema_wf _ Hnil) as Htype.
  rewrite Hval in Htype.
  change (infer locationSchema)
    with (false,
          TsObject [("location", (true, Omit LocationItem "computed"))])
    in Htype.
  unfold Location.
  cbn [property_has_type has_type forallb fst snd] in Htype |- *.
  destruct (out !! "location") as [w|] eqn:Hw; [|reflexivity].
  destruct (Hitem w eq_refl) as (item & -> & Hdom).
  rewrite andb_true_r in Htype |- *.
  apply has_type_LocationItem_without_computed; [|exact Htype].
  apply not_elem_of_dom. intros Hin. apply Hdom in Hin.
  apply elem_of_list_to_set in Hin. revert Hin.
  apply (bool_decide_unpack _). vm_compute. reflexivity.
Qed.

Lemma has_type_string_property (optional : bool) o :
  property_has_type (optional, TsString) o = true →
  (o = None ∧ optional = true) ∨ ∃ s, o = Some (VString s).
Proof.
  destruct o as [[| | |s| |]|]; simpl; try discriminate; eauto.
Qed.

(** X2.  A document of type [Location] can only fail on lengths: every
    issue it raises is a length violation of one of the bounded string
    fields, at the path of that field and naming it, with the bound the
    schema declares. *)
Theorem typed_document_fails_on_length_only
    (props : gmap string value) (error : list issue) (i : issue) :
  has_type Location (VObject props) = true →
  safeParse locationSchema (Some (VObject props)) = Failure error →
  i ∈ error →
  ∃ k min max,
    (k, (min, max)) ∈ bounded_fields ∧
    path i = ["location"; k] ∧
    length_violation k i ∧
    (code i = too_small min ∨ code i = too_big max).
Proof.
  intros Htype Hfail Hi. apply safeParse_Failure in Hfail as [<- _].
  unfold Location in Htype. cbn [has_type forallb fst snd] in Htype.
  rewrite andb_true_r in Htype.
  destruct (props !! "location") as [w|] eqn:Hloc.
  2:{ rewrite locationSchema_issues, Hloc in Hi.
      apply elem_of_nil in Hi. destruct Hi. }
  destruct w as [| | | | |loc]; try discriminate.
  unfold LocationItem in Htype. cbn [has_type forallb fst snd] in Htype.
  rewrite !andb_true_iff in Htype.
  destruct Htype as (Hcity & Haddr & Hcountry & Hpostal & Hregion & _).
  apply (location_issue_inv props loc i Hloc) in Hi
    as (k & sch & j & Hin & Hj & ->).
  assert (∀ name lo hi (optional : bool) o,
            property_has_type (optional, TsString) o = true →
            j ∈ issues (run (if optional
                             then ZOptional (sizedStringSchema name lo hi)
                             else sizedStringSchema name lo hi) o) →
            path j = [] ∧ msg j = FieldMessage name ∧
            (code j = too_small lo ∨ code j = too_big hi)) as Hsized.
  { intros name lo hi optional o Ho Hjo.
    apply has_type_string_property in Ho as [[-> ->]|[s ->]].
    - apply elem_of_nil in Hjo. destruct Hjo.
    - assert (j ∈ issues (run (sizedStringSchema name lo hi)
                            (Some (VString s)))) as Hjs.
      { destruct optional; exact Hjo. }
      apply sizedStringSchema_issue in Hjs
        as [Hpath [(_ & _ & Hnot)|(Hmsg & Hcode & _)]].
      + exfalso. apply (Hnot s). reflexivity.
      + auto. }
  apply locationItemShape_cases in Hin.
  destruct Hin as [Heq|[Heq|[Heq|[Heq|Heq]]]]; inversion Heq; subst k sch.
  - destruct (Hsized "city" 2 64 false _ Hcity Hj) as (Hp & Hm & Hc).
    exists "city", 2, 64. simpl. rewrite Hp.
    split; [unfold bounded_fields; rewrite !elem_of_cons; auto|].
    split; [reflexivity|]. split; [|exact Hc].
    split; [destruct Hc; eauto | exact Hm].
  - destruct (Hsized "address" 4 256 true _ Haddr Hj) as (Hp & Hm & Hc).
    exists "address", 4, 256. simpl. rewrite Hp.
    split; [unfold bounded_fields; rewrite !elem_of_cons; auto|].
    split; [reflexivity|]. split; [|exact Hc].
    split; [destruct Hc; eauto | exact Hm].
  - exfalso. destruct (loc !! "country") as [[| | |s| |]|];
      try discriminate.
    + rewrite run_optional_Some in Hj. simpl in Hj, Hcountry.
      apply bool_decide_eq_true_1 in Hcountry.
      destruct (decide (s ∈ COUNTRY_OPTIONS)); [|contradiction].
      apply elem_of_nil in Hj. exact Hj.
    + apply elem_of_nil in Hj. exact Hj.
  - destruct (Hsized "postalCode" 2 16 true _ Hpostal Hj) as (Hp & Hm & Hc).
    exists "postalCode", 2, 16. simpl. rewrite Hp.
    split; [unfold bounded_fields; rewrite !elem_of_cons; auto|].
    split; [reflexivity|]. split; [|exact Hc].
    split; [destruct Hc; eauto | exact Hm].
  - destruct (Hsized "region" 2 64 true _ Hregion Hj) as (Hp & Hm & Hc).
    exists "region", 2, 64. simpl. rewrite Hp.
    split; [unfold bounded_fields; rewrite !elem_of_cons; auto 6|].
    split; [reflexivity|]. split; [|exact Hc].
    split; [destruct Hc; eauto | exact Hm].
Qed.

(** *** Fields are validated independently *)

Lemma errors_safeParse sch input :
  errors (safeParse sch input) = issues (run sch input).
Proof.
  unfold safeParse. destruct (issues (run sch input)); reflexivity.
Qed.

Lemma prefixIssues_filter key k iss :
  filter (λ i, path i ≠ [key; k]) (prefixIssues key iss) =
  prefixIssues key (filter (λ i, path i ≠ [k]) iss).
Proof.
  unfold prefixIssues. induction iss as [|i iss IH]; [reflexivity|].
  rewrite fmap_cons, !filter_cons. simpl.
  destruct (decide (key :: path i ≠ [key; k])) as [Hne|Heq],
           (decide (path i ≠ [k])) as [Hne'|Heq'].
  - rewrite fmap_cons, IH. reflexivity.
  - exfalso. apply Hne. apply dec_stable in Heq'. rewrite Heq'. reflexivity.
  - exfalso. apply Heq. intros [= Hpath]. contradiction.
  - exact IH.
Qed.

(** Leaving out the issues at the path of a key is leaving out the
    property of that key. *)
Lemma collect_issues_filter k fields :
  Forall (λ kr, Forall (λ j, path j = []) (issues kr.2)) fields →
  filter (λ i, path i ≠ [k]) (collect_issues fields) =
  collect_issues (filter (λ kr, kr.1 ≠ k) fields).
Proof.
  induction 1 as [|[k' r] fields Hroot _ IH]; [reflexivity|].
  rewrite collect_issues_cons, filter_app, filter_cons, IH. simpl in *.
  destruct (decide (k' ≠ k)) as [Hne|Heq].
  - rewrite collect_issues_cons. f_equal.
    unfold prefixIssues. induction Hroot as [|j js Hj _ IHjs]; [reflexivity|].
    rewrite fmap_cons, filter_cons. simpl. rewrite Hj.
    destruct (decide ([k'] ≠ [k])) as [_|Hsame].
    + f_equal. exact IHjs.
    + exfalso. apply Hsame. congruence.
  - apply dec_stable in Heq. subst k'.
    assert (filter (λ i, path i ≠ [k]) (prefixIssues k (issues r)) = [])
      as ->; [|reflexivity].
    unfold prefixIssues. induction Hroot as [|j js Hj _ IHjs]; [reflexivity|].
    rewrite fmap_cons, filter_cons. simpl. rewrite Hj.
    destruct (decide ([k] ≠ [k])) as [Hne|_]; [congruence|]. exact IHjs.
Qed.

Lemma sizedStringSchema_root_issues name min max o :
  Forall (λ j, path j = []) (issues (run (sizedStringSchema name min max) o)).
Proof.
  apply Forall_forall. intros j Hj.
  apply sizedStringSchema_issue in Hj as [Hpath _]. exact Hpath.
Qed.

Lemma ZOptional_root_issues sch o :
  (∀ o', Forall (λ j, path j = []) (issues (run sch o'))) →
  Forall (λ j, path j = []) (issues (run (ZOptional sch) o)).
Proof.
  intros Hsch. destruct o as [v|]; [|constructor].
  rewrite run_optional_Some. apply Hsch.
Qed.

Lemma locationItemShape_root_issues k sch o :
  (k, sch) ∈ locationItemShape →
  Forall (λ j, path j = []) (issues (run sch o)).
Proof.
  intros Hin. apply locationItemShape_cases in Hin.
  destruct Hin as [Heq|[Heq|[Heq|[Heq|Heq]]]]; inversion Heq; subst k sch.
  - apply sizedStringSchema_root_issues.
  - apply ZOptional_root_issues. intros o'.
    apply sizedStringSchema_root_issues.
  - apply ZOptional_root_issues. intros o'.
    destruct (countryOptionSchema_at_most_one o') as [->|(j & -> & Hpath)];
      repeat constructor. exact Hpath.
  - apply ZOptional_root_issues. intros o'.
    apply sizedStringSchema_root_issues.
  - apply ZOptional_root_issues. intros o'.
    apply sizedStringSchema_root_issues.
Qed.

(** The properties other than [k], run on two objects that differ at [k]
    only. *)
Lemma fields_filter_agree (shape : list (string * schema))
    (loc loc' : gmap string value) (k : string) :
  (∀ k', k' ≠ k → loc' !! k' = loc !! k') →
  filter (λ kr, kr.1 ≠ k)
    ((λ ks, (ks.1, run ks.2 (loc' !! ks.1))) <$> shape) =
  filter (λ kr, kr.1 ≠ k)
    ((λ ks, (ks.1, run ks.2 (loc !! ks.1))) <$> shape).
Proof.
  intros Hagree. induction shape as [|[k' sch] shape IH]; [reflexivity|].
  rewrite !fmap_cons, !filter_cons. simpl.
  destruct (decide (k' ≠ k)) as [Hne|_]; [|exact IH].
  rewrite (Hagree k' Hne), IH. reflexivity.
Qed.

(** X9.  The fields of the location object are validated independently:
    when two documents have location objects that differ at the key [k]
    only, validation raises the same issues for both, in the same order,
    apart from the issues at [location.k]. *)
Theorem other_fields_issues_unchanged
    (props props' loc loc' : gmap string value) (k : string) :
  props !! "location" = Some (VObject loc) →
  props' !! "location" = Some (VObject loc') →
  (∀ k', k' ≠ k → loc' !! k' = loc !! k') →
  filter (λ i, path i ≠ ["location"; k])
    (errors (safeParse locationSchema (Some (VObject props')))) =
  filter (λ i, path i ≠ ["location"; k])
    (errors (safeParse locationSchema (Some (VObject props)))).
Proof.
  intros Hloc Hloc' Hagree.
  rewrite !errors_safeParse, !locationSchema_issues, Hloc, Hloc'.
  rewrite !run_optional_Some. unfold locationItemSchema.
  rewrite !issues_run_object, !prefixIssues_filter. f_equal.
  rewrite !collect_issues_filter.
  - rewrite (fields_filter_agree locationItemShape loc loc' k Hagree).
    reflexivity.
  - apply Forall_fmap, Forall_forall. intros [k' sch] Hin. simpl.
    apply (locationItemShape_root_issues k' sch _ Hin).
  - apply Forall_fmap, Forall_forall. intros [k' sch] Hin. simpl.
    apply (locationItemShape_root_issues k' sch _ Hin).
Qed.

End Location.

(** ** The theorems at concrete documents *)

Lemma locationSchema_contract_witness :
  (∅ : gmap string value) !! "location" = None ∧
  ∃ data,
    safeParse (locationSchema ["Germany"]) (Some (VObject ∅)) = Success data.
Proof.
  split; [reflexivity|].
  apply (proj1 (locationSchema_contract ["Germany"] ∅)). reflexivity.
Defined.

Lemma bounded_field_length_witness :
  ("city", (2, 64)) ∈ bounded_fields ∧
  ∃ sch, ("city", sch) ∈ locationItemShape ["Germany"] ∧
    (String.length "Berlin" < 2 ∨ 64 < String.length "Berlin" →
     ∃ i, safeParse sch (Some (VString "Berlin")) = Failure [i] ∧
          length_violation "city" i ∧ path i = []) ∧
    (2 ≤ String.length "Berlin" ≤ 64 →
     safeParse sch (Some (VString "Berlin"))
     = Success (Some (VString "Berlin"))).
Proof.
  split; [apply list_elem_of_here|].
  apply (bounded_field_length ["Germany"] "city" 2 64 "Berlin").
  apply list_elem_of_here.
Defined.

Lemma country_choice_witness :
  country_option ["Germany"] (VString "Germany") ∧
  safeParse (ZOptional (countryOptionSchema ["Germany"]))
    (Some (VString "Germany"))
  = Success (Some (VString "Germany")).
Proof.
  assert (country_option ["Germany"] (VString "Germany")) as Hoption.
  { exists "Germany". split; [reflexivity | apply list_elem_of_here]. }
  split; [exact Hoption|].
  apply (proj1 (proj2 (country_choice ["Germany"] (VString "Germany")))).
  exact Hoption.
Defined.

Lemma location_optional_city_required_witness :
  (∅ : gmap string value) !! "location" = None ∧
  safeParse (locationSchema ["Germany"]) (Some (VObject ∅))
  = Success (Some (VObject ∅)).
Proof.
  split; [reflexivity|].
  apply (proj1 (location_optional_city_required ["Germany"] ∅)). reflexivity.
Defined.

Lemma locationSchema_idempotent_witness :
  safeParse (locationSchema ["Germany"])
    (Some (VObject
             {[ "location" :=
                  VObject (<[ "city" := VString "Berlin" ]>
                             {[ "nickname" := VString "Spree-Athen" ]}) ]}))
  = Success
      (Some (VObject
               {[ "location" := VObject {[ "city" := VString "Berlin" ]} ]})) ∧
  safeParse (locationSchema ["Germany"])
    (Some (VObject
             {[ "location" := VObject {[ "city" := VString "Berlin" ]} ]}))
  = Success
      (Some (VObject
               {[ "location" := VObject {[ "city" := VString "Berlin" ]} ]})).
Proof.
  assert (safeParse (locationSchema ["Germany"])
            (Some (VObject
                     {[ "location" :=
                          VObject (<[ "city" := VString "Berlin" ]>
                                     {[ "nickname" := VString "Spree-Athen" ]}) ]}))
          = Success
              (Some (VObject
                       {[ "location" :=
                            VObject {[ "city" := VString "Berlin" ]} ]})))
    as Hfirst.
  { vm_compute. reflexivity. }
  split; [exact Hfirst|].
  apply (locationSchema_idempotent ["Germany"] _ _ Hfirst).
Defined.

Lemma issues_reported_together_witness :
  ∃ error,
    safeParse (locationSchema ["Germany"])
      (Some (VObject
               {[ "location" := VObject {[ "address" := VString "123" ]} ]}))
    = Failure error ∧
    ∀ k' sch' i',
      (k', sch') ∈ locationItemShape ["Germany"] →
      i' ∈ issues
             (run sch'
                (({[ "address" := VString "123" ]} : gmap string value) !! k')) →
      Issue (code i') ("location" :: k' :: path i') (msg i') ∈ error.
Proof.
  apply (proj1 (issues_reported_together ["Germany"])
           {[ "location" := VObject {[ "address" := VString "123" ]} ]}
           {[ "address" := VString "123" ]}
           "address" (ZOptional (sizedStringSchema "address" 4 256))
           (Issue (too_small 4) [] (FieldMessage "address"))).
  - reflexivity.
  - apply list_elem_of_further, list_elem_of_here.
  - vm_compute. apply list_elem_of_here.
Defined.

Lemma unknown_keys_stripped_witness :
  "city" ≠ "location" ∧
  safeParse (locationSchema ["Germany"])
    (Some (VObject (<[ "city" := VString "Berlin" ]> ∅)))
  = safeParse (locationSchema ["Germany"]) (Some (VObject ∅)).
Proof.
  split; [discriminate|].
  apply (proj1 (unknown_keys_stripped ["Germany"])). discriminate.
Defined.

Lemma validated_data_has_type_Location_witness :
  safeParse (locationSchema ["Germany"])
    (Some (VObject
             {[ "location" :=
                  VObject (<[ "city" := VString "Berlin" ]>
                             {[ "computed" := VNumber 7 ]}) ]}))
  = Success
      (Some (VObject
               {[ "location" := VObject {[ "city" := VString "Berlin" ]} ]})) ∧
  ∃ v,
    Some (VObject
            {[ "location" := VObject {[ "city" := VString "Berlin" ]} ]})
    = Some v ∧
    has_type (Location ["Germany"]) v = true.
Proof.
  assert (safeParse (locationSchema ["Germany"])
            (Some (VObject
                     {[ "location" :=
                          VObject (<[ "city" := VString "Berlin" ]>
                                     {[ "computed" := VNumber 7 ]}) ]}))
          = Success
              (Some (VObject
                       {[ "location" :=
                            VObject {[ "city" := VString "Berlin" ]} ]})))
    as Hok.
  { vm_compute. reflexivity. }
  split; [exact Hok|].
  apply (validated_data_has_type_Location ["Germany"] _ _ Hok).
Defined.

Lemma typed_document_fails_on_length_only_witness :
  ∃ k min max,
    (k, (min, max)) ∈ bounded_fields ∧
    path (Issue (too_small 2) ["location"; "city"] (FieldMessage "city"))
    = ["location"; k] ∧
    length_violation k
      (Issue (too_small 2) ["location"; "city"] (FieldMessage "city")) ∧
    (code (Issue (too_small 2) ["location"; "city"] (FieldMessage "city"))
     = too_small min ∨
     code (Issue (too_small 2) ["location"; "city"] (FieldMessage "city"))
     = too_big max).
Proof.
  apply (typed_document_fails_on_length_only ["Germany"]
           {[ "location" := VObject {[ "city" := VString "B" ]} ]}
           [Issue (too_small 2) ["location"; "city"] (FieldMessage "city")]).
  - vm_compute. reflexivity.
  - vm_compute. reflexivity.
  - apply list_elem_of_here.
Defined.

Lemma validated_data_is_declared_part_witness :
  (({[ "location" :=
         VObject (<[ "city" := VString "Berlin" ]>
                    {[ "nickname" := VString "Spree-Athen" ]}) ]}
    : gmap string value) !! "location" = None ∧
   Some (VObject
           {[ "location" := VObject {[ "city" := VString "Berlin" ]} ]})
   = Some (VObject ∅)) ∨
  (∃ loc,
     ({[ "location" :=
           VObject (<[ "city" := VString "Berlin" ]>
                      {[ "nickname" := VString "Spree-Athen" ]}) ]}
      : gmap string value) !! "location" = Some (VObject loc) ∧
     Some (VObject
             {[ "location" := VObject {[ "city" := VString "Berlin" ]} ]})
     = Some (VObject
               {[ "location" :=
                    VObject (declaredProperties ["Germany"] loc) ]}) ∧
     ∀ k, declaredProperties ["Germany"] loc !! k =
          if decide (k ∈ (locationItemShape ["Germany"]).*1)
          then loc !! k else None).
Proof.
  apply (validated_data_is_declared_part ["Germany"]).
  vm_compute. reflexivity.
Defined.

Lemma issues_follow_declaration_order_witness :
  path <$>
    [ Issue (invalid_type TString TUndefined)
        ["location"; "city"] DefaultMessage;
      Issue (too_small 4) ["location"; "address"] (FieldMessage "address") ]
  `sublist_of` locationFieldPaths ["Germany"] ∧
  length
    [ Issue (invalid_type TString TUndefined)
        ["location"; "city"] DefaultMessage;
      Issue (too_small 4) ["location"; "address"] (FieldMessage "address") ]
  ≤ 5 ∧
  NoDup
    (path <$>
       [ Issue (invalid_type TString TUndefined)
           ["location"; "city"] DefaultMessage;
         Issue (too_small 4) ["location"; "address"]
           (FieldMessage "address") ]).
Proof.
  apply (issues_follow_declaration_order ["Germany"]
           {[ "location" := VObject {[ "address" := VString "123" ]} ]}
           {[ "address" := VString "123" ]}).
  - reflexivity.
  - intros k min max v _ Hv.
    destruct (decide (k = "address")) as [->|Hne].
    + rewrite lookup_singleton_eq in Hv. injection Hv as <-.
      exists "123". reflexivity.
    + rewrite lookup_singleton_ne in Hv by congruence. discriminate.
  - vm_compute. reflexivity.
Defined.

Lemma non_object_rejected_witness :
  safeParse (locationSchema ["Germany"]) (Some VNull)
  = Failure [ Issue (invalid_type TObject TNull) [] DefaultMessage ].
Proof.
  apply (proj1 (non_object_rejected ["Germany"]) (Some VNull)).
  intros props. discriminate.
Defined.

Lemma removing_optional_field_keeps_valid_witness :
  ∃ data',
    safeParse (locationSchema ["Germany"])
      (Some (VObject
               (<[ "location" :=
                     VObject (delete "region"
                                (<[ "city" := VString "Berlin" ]>
                                   {[ "region" := VString "Brandenburg" ]})) ]>
                  {[ "location" :=
                       VObject (<[ "city" := VString "Berlin" ]>
                                  {[ "region" := VString "Brandenburg" ]}) ]})))
    = Success data'.
Proof.
  apply (removing_optional_field_keeps_valid ["Germany"]
           {[ "location" :=
                VObject (<[ "city" := VString "Berlin" ]>
                           {[ "region" := VString "Brandenburg" ]}) ]}
           (<[ "city" := VString "Berlin" ]>
              {[ "region" := VString "Brandenburg" ]})
           "region"
           (Some (VObject
                    {[ "location" :=
                         VObject (<[ "city" := VString "Berlin" ]>
                                    {[ "region" := VString "Brandenburg" ]}) ]}))).
  - reflexivity.
  - discriminate.
  - vm_compute. reflexivity.
Defined.

Lemma validation_fixed_points_witness :
  location_contract ["Germany"]
    {[ "location" := VObject {[ "city" := VString "Berlin" ]} ]} ∧
  dom ({[ "location" := VObject {[ "city" := VString "Berlin" ]} ]}
       : gmap string value) ⊆ {[ "location" ]} ∧
  ∀ loc,
    ({[ "location" := VObject {[ "city" := VString "Berlin" ]} ]}
     : gmap string value) !! "location" = Some (VObject loc) →
    dom loc ⊆ list_to_set (locationItemShape ["Germany"]).*1.
Proof.
  apply (proj1 (validation_fixed_points ["Germany"]
                  {[ "location" := VObject {[ "city" := VString "Berlin" ]} ]})).
  vm_compute. reflexivity.
Defined.

Lemma other_fields_issues_unchanged_witness :
  filter (λ i, path i ≠ ["location"; "city"])
    (errors
       (safeParse (locationSchema ["Germany"])
          (Some (VObject
                   {[ "location" :=
                        VObject (<[ "city" := VString "Berlin" ]>
                                   (<[ "city" := VString "B" ]>
                                      {[ "address" := VString "123" ]})) ]})))) =
  filter (λ i, path i ≠ ["location"; "city"])
    (errors
       (safeParse (locationSchema ["Germany"])
          (Some (VObject
                   {[ "location" :=
                        VObject (<[ "city" := VString "B" ]>
                                   {[ "address" := VString "123" ]}) ]})))).
Proof.
  apply (other_fields_issues_unchanged ["Germany"]
           {[ "location" :=
                VObject (<[ "city" := VString "B" ]>
                           {[ "address" := VString "123" ]}) ]}
           {[ "location" :=
                VObject (<[ "city" := VString "Berlin" ]>
                           (<[ "city" := VString "B" ]>
                              {[ "address" := VString "123" ]})) ]}
           (<[ "city" := VString "B" ]> {[ "address" := VString "123" ]})
           (<[ "city" := VString "Berlin" ]>
              (<[ "city" := VString "B" ]> {[ "address" := VString "123" ]}))
           "city").
  - reflexivity.
  - reflexivity.
  - intros k' Hne. apply lookup_insert_ne. congruence.
Defined.
